(** * Hallon: the extension's common header, [ext/hallon/common.h]

    The repository fragment is one C header.  Its meaning is what the C
    preprocessor makes of it, so the development embeds

    - the text of the header, byte for byte ([common_h]);
    - the translation phases the header exercises: removal of block
      comments, splitting into lines, recognition of the directives
      [#ifndef], [#ifdef], [#else], [#endif], [#define], [#undef] and
      [#include], tokenisation of text lines and replacement of
      object-like macros in them (macros with parameters are not
      modelled);
    - the evaluation of a directive list against a macro table with a
      stack of open conditionals.

    The system headers [<ruby.h>], [<pthread.h>] and the libspotify header
    are not part of the repository.  The first evaluator ([step], [run],
    [preprocess]) records an [#include] as an event and goes on, as if the
    file were found and left the macro table alone.  The second
    ([step_with], [run_with], [preprocess_with]) is parametrised by what
    reading an outside file does, failure included, and is the first one
    when reading does nothing ([run_with_inert]). *)

From Stdlib Require Import Ascii String.
From stdpp Require Import base strings list gmap.

Open Scope string_scope.
Open Scope list_scope.

(** ** The text of the header *)

Definition LF : string := String "010"%char "".

(** [ext/hallon/common.h], one source line per line below.  Lines 3 and 6
    hold two spaces, line 12 is empty, and the closing [#endif] is not
    followed by a newline. *)
Definition common_h : string :=
  "#ifndef __HALLON__" +:+ LF +:+
  "  #define __HALLON__" +:+ LF +:+
  "  " +:+ LF +:+
  "  #include <ruby.h>" +:+ LF +:+
  "  #include <pthread.h>" +:+ LF +:+
  "  " +:+ LF +:+
  "  #ifdef HAVE_LIBSPOTIFY_API_H" +:+ LF +:+
  "  #  include <libspotify/api.h>" +:+ LF +:+
  "  #else" +:+ LF +:+
  "  #  include <spotify/api.h>" +:+ LF +:+
  "  #endif" +:+ LF +:+
  "" +:+ LF +:+
  "  /*" +:+ LF +:+
  "    Initializers for the other classes." +:+ LF +:+
  "  */" +:+ LF +:+
  "  void Init_Session(VALUE);" +:+ LF +:+
  "#endif".

Definition GUARD : string := "__HALLON__".
Definition HAVE_LIBSPOTIFY_API_H : string := "HAVE_LIBSPOTIFY_API_H".

(** ** Characters and lines *)

Definition is_newline (c : ascii) : bool := Ascii.eqb c "010"%char.

Definition is_space (c : ascii) : bool :=
  Ascii.eqb c " "%char || Ascii.eqb c "009"%char ||
  Ascii.eqb c "010"%char || Ascii.eqb c "013"%char ||
  Ascii.eqb c "011"%char || Ascii.eqb c "012"%char.

Definition is_digit (c : ascii) : bool :=
  let n := nat_of_ascii c in (48 <=? n)%nat && (n <=? 57)%nat.

Definition is_alpha (c : ascii) : bool :=
  let n := nat_of_ascii c in
  ((65 <=? n)%nat && (n <=? 90)%nat) ||
  ((97 <=? n)%nat && (n <=? 122)%nat) ||
  Ascii.eqb c "_"%char.

Definition is_word (c : ascii) : bool := is_alpha c || is_digit c.

(** Number of newline characters in a text. *)
Fixpoint newline_count (s : string) : nat :=
  match s with
  | EmptyString => 0
  | String c r => (if is_newline c then 1 else 0) + newline_count r
  end.

(** The text cut at every newline; the newlines themselves are dropped.
    A text with [n] newlines yields [n + 1] pieces, the last of which is
    whatever follows the final newline (possibly nothing). *)
Fixpoint split_lines (s : string) : list string :=
  match s with
  | EmptyString => [EmptyString]
  | String c r =>
    if is_newline c then EmptyString :: split_lines r
    else match split_lines r with
         | l :: ls => String c l :: ls
         | [] => [String c EmptyString]
         end
  end.

Definition drop_last_if_empty (ls : list string) : list string :=
  match reverse ls with
  | EmptyString :: rest => reverse rest
  | _ => ls
  end.

(** The lines of a source file as an editor or a compiler numbers them:
    a final newline terminates the last line and opens no new one, while
    text after the final newline is a line of its own. *)
Definition source_lines (s : string) : list string :=
  drop_last_if_empty (split_lines s).

Definition line_count (s : string) : nat := length (source_lines s).

(** Whether the last byte of a text is a newline. *)
Fixpoint ends_with_newline (s : string) : bool :=
  match s with
  | EmptyString => false
  | String c EmptyString => is_newline c
  | String _ r => ends_with_newline r
  end.

(** Whether a text ends in a line that no newline terminates. *)
Definition unterminated_last_line (s : string) : bool :=
  match s with
  | EmptyString => false
  | _ => negb (ends_with_newline s)
  end.

(** ** Comment removal

    Every block comment is replaced by one space.  A comment still open
    at the end of the text is an error. *)

Inductive cmode := InCode | InComment.

Fixpoint strip_comments_from (m : cmode) (s : string) : option string :=
  match s with
  | EmptyString =>
    match m with InCode => Some EmptyString | InComment => None end
  | String c r =>
    match m with
    | InCode =>
      match r with
      | String c2 r2 =>
        if Ascii.eqb c "/"%char && Ascii.eqb c2 "*"%char
        then String " "%char <$> strip_comments_from InComment r2
        else String c <$> strip_comments_from InCode r
      | EmptyString => String c <$> strip_comments_from InCode r
      end
    | InComment =>
      match r with
      | String c2 r2 =>
        if Ascii.eqb c "*"%char && Ascii.eqb c2 "/"%char
        then strip_comments_from InCode r2
        else strip_comments_from InComment r
      | EmptyString => strip_comments_from InComment r
      end
    end
  end.

Definition strip_comments (s : string) : option string :=
  strip_comments_from InCode s.

(** The bodies of the block comments of a text, in order. *)
Fixpoint comments_from (m : cmode) (cur : string) (s : string) : list string :=
  match s with
  | EmptyString => []
  | String c r =>
    match m with
    | InCode =>
      match r with
      | String c2 r2 =>
        if Ascii.eqb c "/"%char && Ascii.eqb c2 "*"%char
        then comments_from InComment EmptyString r2
        else comments_from InCode EmptyString r
      | EmptyString => []
      end
    | InComment =>
      match r with
      | String c2 r2 =>
        if Ascii.eqb c "*"%char && Ascii.eqb c2 "/"%char
        then cur :: comments_from InCode EmptyString r2
        else comments_from InComment (cur +:+ String c EmptyString) r
      | EmptyString => []
      end
    end
  end.

Definition comments (s : string) : list string :=
  comments_from InCode EmptyString s.

(** ** Tokens

    A token is a maximal run of letters, digits and underscores, or one
    other non-blank character. *)

Definition flush (w : string) : list string :=
  match w with EmptyString => [] | _ => [w] end.

Fixpoint tokenize_from (w : string) (s : string) : list string :=
  match s with
  | EmptyString => flush w
  | String c r =>
    if is_word c then tokenize_from (w +:+ String c EmptyString) r
    else if is_space c then flush w ++ tokenize_from EmptyString r
    else flush w ++ String c EmptyString :: tokenize_from EmptyString r
  end.

Definition tokenize (s : string) : list string := tokenize_from EmptyString s.

Definition is_ident (t : string) : bool :=
  match t with
  | EmptyString => false
  | String c r => is_alpha c && forallb is_word (list_ascii_of_string r)
  end.

Fixpoint skip_space (s : string) : string :=
  match s with
  | String c r => if is_space c then skip_space r else s
  | EmptyString => EmptyString
  end.

(** Splits a text into its leading word and the rest. *)
Fixpoint take_word (s : string) : string * string :=
  match s with
  | String c r =>
    if is_word c then let '(w, rest) := take_word r in (String c w, rest)
    else (EmptyString, s)
  | EmptyString => (EmptyString, EmptyString)
  end.

(** Reads up to the closing delimiter [close]; [None] when it is missing. *)
Fixpoint take_until (close : ascii) (s : string) : option string :=
  match s with
  | String c r =>
    if Ascii.eqb c close then Some EmptyString
    else String c <$> take_until close r
  | EmptyString => None
  end.

(** ** Directives *)

Inductive include_form := Angle | Quoted.

Inductive item :=
  | Blank
  | Ifndef (m : string)
  | Ifdef (m : string)
  | Else
  | Endif
  | Define (m : string) (body : list string)
  | Undef (m : string)
  | Include (form : include_form) (path : string)
  | BadDirective (line : string)
  | Text (toks : list string).

(** The operand of [#ifdef], [#ifndef] and [#undef]: one identifier. *)
Definition macro_operand (rest : string) : option string :=
  match tokenize rest with
  | [m] => if is_ident m then Some m else None
  | _ => None
  end.

(** The operand of [#include]: a path between angle brackets or between
    double quotes (character 34). *)
Definition include_operand (rest : string) : option (include_form * string) :=
  match skip_space rest with
  | String c r =>
    if Ascii.eqb c "<"%char then pair Angle <$> take_until ">"%char r
    else if Ascii.eqb c "034"%char then pair Quoted <$> take_until "034"%char r
    else None
  | EmptyString => None
  end.

(** In [#define], a parenthesis directly after the macro name opens a
    parameter list. *)
Definition opens_parameters (after : string) : bool :=
  match after with
  | String c _ => Ascii.eqb c "("%char
  | EmptyString => false
  end.

(** The directives read are those of the header and [#undef].  Every
    other line that starts with [#] becomes [BadDirective]: a malformed
    directive, or one of the forms left out of the model ([#if], [#elif],
    [#pragma], [#error], [#line], [#define] with parameters). *)
Definition parse_directive (line : string) (name rest : string) : item :=
  if String.eqb name "ifndef" then
    from_option Ifndef (BadDirective line) (macro_operand rest)
  else if String.eqb name "ifdef" then
    from_option Ifdef (BadDirective line) (macro_operand rest)
  else if String.eqb name "undef" then
    from_option Undef (BadDirective line) (macro_operand rest)
  else if String.eqb name "else" then Else
  else if String.eqb name "endif" then Endif
  else if String.eqb name "define" then
    let '(m, after) := take_word (skip_space rest) in
    if is_ident m && negb (opens_parameters after)
    then Define m (tokenize after) else BadDirective line
  else if String.eqb name "include" then
    from_option (fun fp => Include fp.1 fp.2) (BadDirective line)
                (include_operand rest)
  else if String.eqb name "" then
    match skip_space rest with
    | EmptyString => Blank
    | _ => BadDirective line
    end
  else BadDirective line.

(** A line whose first non-blank character is [#] is a directive; blanks
    may stand before the [#] and between it and the directive name. *)
Definition parse_line (line : string) : item :=
  match skip_space line with
  | EmptyString => Blank
  | String c r =>
    if Ascii.eqb c "#"%char then
      let '(name, rest) := take_word (skip_space r) in
      parse_directive line name rest
    else Text (tokenize line)
  end.

(** The items of a source text, one per line left after comment removal. *)
Definition parse_text (s : string) : option (list item) :=
  (fun t => parse_line <$> split_lines t) <$> strip_comments s.

(** ** Macro tables and macro replacement *)

Abbreviation macros := (gmap string (list string)).

Definition defined (m : string) (env : macros) : bool :=
  bool_decide (is_Some (env !! m)).

(** Replacement of object-like macros in a token list, with rescanning of
    each replacement; a macro is not replaced again inside its own
    replacement ([hide]).  [fuel] bounds the nesting of replacements.
    Macros with parameters, the [##] operator and built-in macros are not
    covered: what is proved of replaced text is proved for tokens that
    name no macro, or for object-like macros. *)
Fixpoint expand_with (fuel : nat) (hide : list string) (env : macros)
    (ts : list string) : list string :=
  match fuel with
  | O => ts
  | S fuel' =>
    t ← ts;
    match env !! t with
    | Some body =>
      if is_ident t && negb (bool_decide (t ∈ hide))
      then expand_with fuel' (t :: hide) env body
      else [t]
    | None => [t]
    end
  end.

(** Nested replacements hide pairwise distinct macros, so their depth
    never exceeds the number of macros in the table. *)
Definition expand (env : macros) (ts : list string) : list string :=
  expand_with (S (size env)) [] env ts.

(** ** Evaluation *)

Inductive event :=
  | Included (form : include_form) (path : string)
  | Emitted (toks : list string).

(** An open conditional: whether the enclosing group is being processed,
    the value of the controlling condition, and whether [#else] has been
    passed. *)
Record frame := Frame {
  parent_active : bool;
  condition : bool;
  in_else : bool
}.

Definition frame_active (f : frame) : bool :=
  parent_active f && (if in_else f then negb (condition f) else condition f).

Record pp_state := PP {
  pp_env : macros;
  pp_stack : list frame;
  pp_out : list event
}.

Definition active (st : pp_state) : bool :=
  match pp_stack st with
  | [] => true
  | f :: _ => frame_active f
  end.

Definition push_frame (c : bool) (st : pp_state) : pp_state :=
  PP (pp_env st) (Frame (active st) c false :: pp_stack st) (pp_out st).

Definition emit (e : event) (st : pp_state) : pp_state :=
  PP (pp_env st) (pp_stack st) (pp_out st ++ [e]).

Definition set_env (env : macros) (st : pp_state) : pp_state :=
  PP env (pp_stack st) (pp_out st).

(** One item.  [None] is a preprocessing error: [#else] or [#endif]
    without an open conditional, a second [#else], or, in a group that is
    being processed, a directive that is malformed or left out of the
    model.  An [#include] is taken to find its file and the file to leave
    the macro table as it is; [step_with] below drops both assumptions. *)
Definition step (it : item) (st : pp_state) : option pp_state :=
  match it with
  | Blank => Some st
  | Ifndef m => Some (push_frame (negb (defined m (pp_env st))) st)
  | Ifdef m => Some (push_frame (defined m (pp_env st)) st)
  | Else =>
    match pp_stack st with
    | Frame p c false :: rest => Some (PP (pp_env st) (Frame p c true :: rest) (pp_out st))
    | _ => None
    end
  | Endif =>
    match pp_stack st with
    | _ :: rest => Some (PP (pp_env st) rest (pp_out st))
    | [] => None
    end
  | Define m body =>
    Some (if active st then set_env (<[m := body]> (pp_env st)) st else st)
  | Undef m =>
    Some (if active st then set_env (delete m (pp_env st)) st else st)
  | Include form path =>
    Some (if active st then emit (Included form path) st else st)
  | BadDirective _ => if active st then None else Some st
  | Text toks =>
    Some (if active st
          then match expand (pp_env st) toks with
               | [] => st
               | ts => emit (Emitted ts) st
               end
          else st)
  end.

Fixpoint run (its : list item) (st : pp_state) : option pp_state :=
  match its with
  | [] => Some st
  | it :: rest => step it st ≫= run rest
  end.

(** Processing a whole source text from a macro table: the macro table
    left behind and the events produced.  A conditional still open at the
    end of the text is an error. *)
Definition preprocess (src : string) (env : macros)
    : option (macros * list event) :=
  its ← parse_text src;
  st ← run its (PP env [] []);
  match pp_stack st with
  | [] => Some (pp_env st, pp_out st)
  | _ => None
  end.


(** Events produced by the header from a macro table. *)
Definition emitted (env : macros) : option (list event) :=
  snd <$> preprocess common_h env.

(** How often a path is included, in either form. *)
Fixpoint times_included (p : string) (out : list event) : nat :=
  match out with
  | [] => 0
  | Included _ q :: rest =>
    (if String.eqb p q then 1 else 0) + times_included p rest
  | Emitted _ :: rest => times_included p rest
  end.

Definition includes_of (out : list event) : list (include_form * string) :=
  omap (fun e => match e with
                 | Included f p => Some (f, p)
                 | Emitted _ => None
                 end) out.

Definition declarations_of (out : list event) : list (list string) :=
  omap (fun e => match e with
                 | Emitted ts => Some ts
                 | Included _ _ => None
                 end) out.

(** ** Function declarations *)

Record prototype := Prototype {
  ret_type : list string;
  fn_name : string;
  params : option (list (list string))
}.

(** Cuts a token list at every top-level comma. *)
Fixpoint split_commas (cur : list string) (ts : list string)
    : list (list string) :=
  match ts with
  | [] => [cur]
  | t :: rest =>
    if String.eqb t "," then cur :: split_commas [] rest
    else split_commas (cur ++ [t]) rest
  end.

(** The parameter list between the parentheses: [()] leaves the
    parameters unspecified, [(void)] declares none. *)
Definition parse_params (inside : list string)
    : option (option (list (list string))) :=
  if existsb (fun t => String.eqb t "(" || String.eqb t ")") inside then None
  else match inside with
       | [] => Some None
       | ["void"] => Some (Some [])
       | _ =>
         let ps := split_commas [] inside in
         if forallb (fun p => negb (bool_decide (p = []))) ps
         then Some (Some ps) else None
       end.

Fixpoint span_until_paren (ts : list string)
    : option (list string * list string) :=
  match ts with
  | [] => None
  | t :: rest =>
    if String.eqb t "(" then Some ([], rest)
    else '(before, after) ← span_until_paren rest; Some (t :: before, after)
  end.

(** A text line of the shape [type name ( parameters ) ;]. *)
Definition parse_prototype (ts : list string) : option prototype :=
  '(before, after) ← span_until_paren ts;
  match reverse before, reverse after with
  | name :: ((_ :: _) as rty), ";" :: ")" :: inside =>
    if is_ident name
       && forallb (fun t => is_ident t || String.eqb t "*") rty
       && negb (existsb (String.eqb "typedef") rty)
    then Prototype (reverse rty) name <$> parse_params (reverse inside)
    else None
  | _, _ => None
  end.

Definition text_lines (its : list item) : list (list string) :=
  omap (fun it => match it with Text ts => Some ts | _ => None end) its.

Definition declared_functions (its : list item) : list prototype :=
  omap parse_prototype (text_lines its).

Definition macros_defined (its : list item) : list string :=
  omap (fun it => match it with Define m _ => Some m | _ => None end) its.

(** ** The header as a list of items, and what a first reading yields *)

Definition decl_tokens : list string :=
  ["void"; "Init_Session"; "("; "VALUE"; ")"; ";"].

Definition header_items : list item :=
  [ Ifndef GUARD; Define GUARD []; Blank;
    Include Angle "ruby.h"; Include Angle "pthread.h"; Blank;
    Ifdef HAVE_LIBSPOTIFY_API_H; Include Angle "libspotify/api.h"; Else;
    Include Angle "spotify/api.h"; Endif; Blank; Blank;
    Text decl_tokens; Endif ].

Definition fallback_path (env : macros) : string :=
  if defined HAVE_LIBSPOTIFY_API_H env
  then "libspotify/api.h" else "spotify/api.h".

Definition first_reading (env : macros) : macros * list event :=
  (<[GUARD := []]> env,
   [ Included Angle "ruby.h"; Included Angle "pthread.h";
     Included Angle (fallback_path env);
     Emitted (expand (<[GUARD := []]> env) decl_tokens) ]).

(** The identifiers of the declaration line. *)
Definition decl_identifiers : list string := ["void"; "Init_Session"; "VALUE"].

(** Two macro tables agree on the two macros the header tests. *)
Definition agree_on_tested_macros (env1 env2 : macros) : Prop :=
  defined GUARD env1 = defined GUARD env2 ∧
  defined HAVE_LIBSPOTIFY_API_H env1 = defined HAVE_LIBSPOTIFY_API_H env2.

Definition no_macros : macros := ∅.
Definition value_is_int : macros := {[ "VALUE" := ["int"] ]}.

(** The lines of a header that holds a guard, includes and function
    declarations only: nothing (blank or comment), a part of the include
    guard, an [#include], a part of the conditional that chooses between
    two includes, or a function declaration. *)
Definition plain_header_item (it : item) : bool :=
  match it with
  | Blank | Else | Endif | Include _ _ => true
  | Ifndef m => String.eqb m GUARD
  | Define m body => String.eqb m GUARD && bool_decide (body = [])
  | Ifdef m => String.eqb m HAVE_LIBSPOTIFY_API_H
  | Text ts => bool_decide (is_Some (parse_prototype ts))
  | Undef _ | BadDirective _ => false
  end.

(** The items inside an [#ifdef] ... [#endif] that is not the guard. *)
Fixpoint inside_choice (depth : nat) (its : list item) : list item :=
  match its with
  | [] => []
  | (Ifdef _ | Ifndef _) as it :: rest =>
    (if depth is O then [] else [it]) ++ inside_choice (S depth) rest
  | Endif :: rest =>
    (if depth is S (S _) then [Endif] else []) ++ inside_choice (pred depth) rest
  | it :: rest =>
    (if depth is S (S _) then [it] else []) ++ inside_choice depth rest
  end.

(** ** Files outside the repository

    [step] records an [#include] and goes on.  The files the header
    includes are not part of the repository, and reading them changes the
    macro table (a configuration header read by [<ruby.h>] may define
    [HAVE_LIBSPOTIFY_API_H]) or fails when a file is missing.  The
    evaluator of this section lets them do anything: it is parametrised by
    what reading an outside file does. *)

(** What the declaration line contributes under a macro table. *)
Definition decl_events (env : macros) : list event :=
  match expand env decl_tokens with
  | [] => []
  | ts => [Emitted ts]
  end.

Section External.

(** Whatever else the outside consists of besides the macro table: the
    files on disk, which of them were read already, and so on. *)
Context {world : Type}.

(** Reading the file an [#include] names: from the outside and the macro
    table on entry to the outside and the macro table it leaves; [None]
    when the file is missing or reading it fails. *)
Variable sys :
  include_form → string → world → macros → option (world * macros).

(** The state of [pp_state], the outside, and the tests made so far:
    every [#ifdef] and [#ifndef] evaluated in a processed group, with the
    macro it tested and whether the macro was defined. *)
Record xstate := XS {
  x_world : world;
  x_pp : pp_state;
  x_tests : list (string * bool)
}.

Definition record_test (m : string) (st : xstate) : list (string * bool) :=
  if active (x_pp st)
  then x_tests st ++ [(m, defined m (pp_env (x_pp st)))]
  else x_tests st.

(** One item, as [step] except that an [#include] in a processed group
    reads the file: the file may be missing, and it leaves the macro table
    of its choice. *)
Definition step_with (it : item) (st : xstate) : option xstate :=
  match it with
  | Include form path =>
    if active (x_pp st)
    then '(w, env) ← sys form path (x_world st) (pp_env (x_pp st));
         Some (XS w (emit (Included form path) (set_env env (x_pp st)))
                  (x_tests st))
    else Some st
  | Ifdef m | Ifndef m =>
    pp ← step it (x_pp st);
    Some (XS (x_world st) pp (record_test m st))
  | _ =>
    pp ← step it (x_pp st);
    Some (XS (x_world st) pp (x_tests st))
  end.

Fixpoint run_with (its : list item) (st : xstate) : option xstate :=
  match its with
  | [] => Some st
  | it :: rest => step_with it st ≫= run_with rest
  end.

(** Reading a source text in the middle of another file. *)
Definition include_here_with (src : string) (st : xstate) : option xstate :=
  its ← parse_text src; run_with its st.

(** Processing a whole source text from a macro table. *)
Definition preprocess_with (src : string) (w : world) (env : macros)
    : option xstate :=
  st ← include_here_with src (XS w (PP env [] []) []);
  match pp_stack (x_pp st) with
  | [] => Some st
  | _ => None
  end.

(** What a reading of the header in a processed group, with the guard
    not defined, amounts to: the guard is defined, the three files are
    read in turn, each from the table the one before left, the choice of
    the third is made on the table [<pthread.h>] left, and the declaration
    is replaced under the table the third left. *)
Definition header_first_result (w : world) (env : macros)
    (stk : list frame) (out : list event) (tests : list (string * bool))
    : option xstate :=
  '(w1, e1) ← sys Angle "ruby.h" w (<[GUARD := []]> env);
  '(w2, e2) ← sys Angle "pthread.h" w1 e1;
  '(w3, e3) ← sys Angle (fallback_path e2) w2 e2;
  Some (XS w3
          (PP e3 stk
              (out ++ [ Included Angle "ruby.h"; Included Angle "pthread.h";
                        Included Angle (fallback_path e2) ] ++ decl_events e3))
          (tests ++ [ (GUARD, false);
                      (HAVE_LIBSPOTIFY_API_H,
                       defined HAVE_LIBSPOTIFY_API_H e2) ])).

(** *** The header inside a translation unit

    A translation unit is described by what it does apart from including
    the header: a list of segments, each an arbitrary change of the
    outside and of the preprocessor state (text, directives of any kind,
    other files), which may fail. *)

Definition segment : Type := world * pp_state → option (world * pp_state).

(** One inclusion of the header at the point the unit has reached. *)
Definition read_header (c : world * pp_state) : option (world * pp_state) :=
  st ← include_here_with common_h (XS c.1 c.2 []);
  Some (x_world st, x_pp st).

(** A unit that reads something again ([reader]) after each of its
    segments. *)
Fixpoint rereading_by (reader : segment) (segs : list segment)
    (c : world * pp_state) : option (world * pp_state) :=
  match segs with
  | [] => Some c
  | seg :: rest => c1 ← seg c; c2 ← reader c1; rereading_by reader rest c2
  end.

(** The unit that includes the header again after each of its segments. *)
Definition rereading : list segment → world * pp_state → option (world * pp_state) :=
  rereading_by read_header.

(** The same segments without the further inclusions. *)
Fixpoint not_rereading (segs : list segment) (c : world * pp_state)
    : option (world * pp_state) :=
  match segs with
  | [] => Some c
  | seg :: rest => c1 ← seg c; not_rereading rest c1
  end.

(** The unit includes the header first, then once more after every
    segment. *)
Definition unit_including_again (segs : list segment)
    (c : world * pp_state) : option (world * pp_state) :=
  read_header c ≫= rereading segs.

(** The unit includes the header once, at its start. *)
Definition unit_including_once (segs : list segment)
    (c : world * pp_state) : option (world * pp_state) :=
  read_header c ≫= not_rereading segs.

(** A segment that does not undefine the guard. *)
Definition keeps_guard (seg : segment) : Prop :=
  ∀ c c', seg c = Some c' →
    defined GUARD (pp_env c.2) = true → defined GUARD (pp_env c'.2) = true.

(** No outside file undefines the guard. *)
Definition sys_keeps_guard : Prop :=
  ∀ form path w env w' env',
    sys form path w env = Some (w', env') →
    defined GUARD env = true → defined GUARD env' = true.

(** The segment made of items of the unit's own. *)
Definition items_segment (its : list item) : segment :=
  fun c =>
    st ← run_with its (XS c.1 c.2 []);
    Some (x_world st, x_pp st).

End External.

(** The outside that [step] assumes: every file is found and leaves the
    macro table as it is. *)
Definition inert {world : Type}
    : include_form → string → world → macros → option (world * macros) :=
  fun _ _ w env => Some (w, env).

(** An outside to try the theorems on: a [<ruby.h>] that, when
    [RUBY_EXTCONF_H] is defined, reads the configuration header it names,
    which defines [HAVE_LIBSPOTIFY_API_H]; a [<spotify/api.h>] that is
    missing, the library's header being installed as
    [<libspotify/api.h>] only; every other file is found and leaves the
    macro table as it is. *)
Definition extconf_hook
    : include_form → string → unit → macros → option (unit * macros) :=
  fun _ path w env =>
    if String.eqb path "ruby.h" then
      Some (w, if defined "RUBY_EXTCONF_H" env
               then <[HAVE_LIBSPOTIFY_API_H := ["1"]]> env else env)
    else if String.eqb path "spotify/api.h" then None
    else Some (w, env).

(** The unit that undefines the guard between two inclusions. *)
Definition undef_guard_segment {world : Type} : segment (world := world) :=
  items_segment inert [Undef GUARD].

(** ** The companion translation unit *)

Module Companion.
















End Companion.

(** * Properties *)

Lemma parse_common_h : parse_text common_h = Some header_items.
Proof. vm_compute. reflexivity. Qed.

(** ** The model on small inputs *)

Example parse_indented_include :
  parse_line "  #  include <libspotify/api.h>" = Include Angle "libspotify/api.h".
Proof. reflexivity. Qed.

Example parse_quoted_include :
  parse_line ("#include " +:+ String "034"%char ("common.h" +:+ String "034"%char ""))
  = Include Quoted "common.h".
Proof. reflexivity. Qed.

Example define_with_parameters_is_left_out :
  parse_line "#define F (x)" = Define "F" ["("; "x"; ")"] ∧
  parse_line "#define F(x) x" = BadDirective "#define F(x) x" ∧
  parse_line "#if 1" = BadDirective "#if 1".
Proof. repeat split; reflexivity. Qed.

Example comment_becomes_a_space :
  strip_comments "a/* b */c" = Some "a c" ∧ strip_comments "a/* b" = None.
Proof. split; reflexivity. Qed.

Example stray_endif_is_an_error : preprocess "#endif" ∅ = None.
Proof. reflexivity. Qed.

Example open_conditional_is_an_error : preprocess "#ifdef A" ∅ = None.
Proof. reflexivity. Qed.

Example skipped_group_is_silent :
  snd <$> preprocess ("#ifdef A" +:+ LF +:+ "#include <a.h>" +:+ LF +:+
                      "#else" +:+ LF +:+ "int x;" +:+ LF +:+ "#endif") ∅
  = Some [Emitted ["int"; "x"; ";"]].
Proof. vm_compute. reflexivity. Qed.

Example replacement_rescans_but_not_itself :
  expand {[ "A" := ["B"; "+"; "1"]; "B" := ["A"; "x"] ]} ["A"; ";"]
  = ["A"; "x"; "+"; "1"; ";"].
Proof. vm_compute. reflexivity. Qed.

Example lines_of_terminated_and_unterminated_text :
  source_lines ("a" +:+ LF +:+ "b" +:+ LF) = ["a"; "b"] ∧
  source_lines ("a" +:+ LF +:+ "b") = ["a"; "b"] ∧
  newline_count ("a" +:+ LF +:+ "b" +:+ LF) = 2 ∧
  newline_count ("a" +:+ LF +:+ "b") = 1.
Proof. repeat split; reflexivity. Qed.

(** ** Lines *)

(** Cutting at newlines yields one piece more than there are newlines. *)
Lemma split_lines_length (s : string) :
  length (split_lines s) = S (newline_count s).
Proof.
  induction s as [| c r IH]; [done |].
  cbn [split_lines newline_count]. destruct (is_newline c).
  - cbn [length Nat.add]. by rewrite IH.
  - destruct (split_lines r) as [| l ls]; [discriminate IH |].
    cbn [length Nat.add] in *. exact IH.
Qed.

Lemma ends_with_newline_counted (s : string) :
  ends_with_newline s = true → (0 < newline_count s)%nat.
Proof.
  induction s as [| c r IH]; [discriminate |].
  cbn [ends_with_newline newline_count]. destruct r as [| c' r'].
  - intros ->. cbn. lia.
  - intros Hr. specialize (IH Hr). lia.
Qed.

(** The pieces of a text are its terminated lines followed by one last
    piece, which is empty exactly when the text has no unterminated last
    line. *)
Lemma split_lines_snoc (s : string) :
  ∃ init l,
    split_lines s = init ++ [l] ∧
    length init = newline_count s ∧
    (l = EmptyString ↔ unterminated_last_line s = false).
Proof.
  induction s as [| c r (init & l & Hsplit & Hlen & Hlast)].
  { exists [], EmptyString. done. }
  cbn [split_lines newline_count]. rewrite Hsplit.
  destruct (is_newline c) eqn:Hc.
  - exists (EmptyString :: init), l. split; [done |].
    split; [cbn [length]; lia |].
    rewrite Hlast. unfold unterminated_last_line.
    cbn [ends_with_newline]. rewrite Hc. by destruct r.
  - destruct init as [| l0 init'].
    + exists [], (String c l). split; [done |]. split; [done |].
      split; [discriminate |].
      unfold unterminated_last_line. cbn [ends_with_newline]. rewrite Hc.
      destruct r as [| c' r']; [discriminate |].
      destruct (ends_with_newline (String c' r')) eqn:Hends; [| discriminate].
      apply ends_with_newline_counted in Hends. cbn [length] in Hlen. lia.
    + exists (String c l0 :: init'), l. split; [done |]. split; [done |].
      rewrite Hlast. unfold unterminated_last_line.
      cbn [ends_with_newline]. rewrite Hc.
      destruct r as [| c' r']; [| done].
      discriminate Hlen.
Qed.

Lemma drop_last_if_empty_snoc (init : list string) (l : string) :
  drop_last_if_empty (init ++ [l]) =
  match l with EmptyString => init | _ => init ++ [l] end.
Proof.
  unfold drop_last_if_empty. rewrite reverse_snoc.
  destruct l; [apply reverse_involutive | reflexivity].
Qed.

(** A text has as many lines as it has newlines, and one more when text
    follows its last newline. *)
Lemma line_count_newlines (s : string) :
  line_count s =
  (newline_count s + if unterminated_last_line s then 1 else 0)%nat.
Proof.
  destruct (split_lines_snoc s) as (init & l & Hsplit & Hlen & Hlast).
  unfold line_count, source_lines. rewrite Hsplit, drop_last_if_empty_snoc.
  destruct l as [| c l'].
  - rewrite (proj1 Hlast) by done. lia.
  - revert Hlast. destruct (unterminated_last_line s); intros [_ Hempty].
    + rewrite length_app. cbn [length]. lia.
    + discriminate (Hempty eq_refl).
Qed.

(** Terminating the last line adds a newline and no line. *)
Lemma terminated_common_h_lines :
  newline_count (common_h +:+ LF) = 17 ∧ line_count (common_h +:+ LF) = 17.
Proof. split; vm_compute; reflexivity. Qed.

(** ** Macro tables *)

Lemma defined_true (m : string) (env : macros) :
  defined m env = true ↔ is_Some (env !! m).
Proof. unfold defined. apply bool_decide_eq_true. Qed.

Lemma defined_false (m : string) (env : macros) :
  defined m env = false ↔ env !! m = None.
Proof.
  unfold defined. rewrite bool_decide_eq_false, <- eq_None_not_Some. done.
Qed.

Lemma defined_insert_eq (m : string) (body : list string) (env : macros) :
  defined m (<[m := body]> env) = true.
Proof. apply defined_true. rewrite lookup_insert_eq. eauto. Qed.

Lemma defined_insert_ne (m k : string) (body : list string) (env : macros) :
  k ≠ m → defined m (<[k := body]> env) = defined m env.
Proof. intros Hne. unfold defined. by rewrite lookup_insert_ne. Qed.

(** ** Macro replacement *)

Lemma expand_with_nil fuel hide (env : macros) : expand_with fuel hide env [] = [].
Proof. by destruct fuel. Qed.

Lemma expand_with_cons fuel hide (env : macros) t ts :
  expand_with (S fuel) hide env (t :: ts) =
  expand_with (S fuel) hide env [t] ++ expand_with (S fuel) hide env ts.
Proof. cbn [expand_with]. rewrite bind_cons, bind_singleton. done. Qed.

(** A token that names no macro is left as it is. *)
Lemma expand_with_undefined fuel hide (env : macros) t :
  env !! t = None → expand_with fuel hide env [t] = [t].
Proof.
  intros Hnone. destruct fuel; [done |].
  cbn [expand_with]. rewrite bind_singleton, Hnone. done.
Qed.

(** Only identifiers are replaced. *)
Lemma expand_with_not_ident fuel hide (env : macros) t :
  is_ident t = false → expand_with fuel hide env [t] = [t].
Proof.
  intros Hid. destruct fuel; [done |].
  cbn [expand_with]. rewrite bind_singleton, Hid.
  by destruct (env !! t).
Qed.

Lemma expand_with_all_undefined fuel hide (env : macros) ts :
  Forall (fun t => env !! t = None) ts → expand_with fuel hide env ts = ts.
Proof.
  intros Hall. destruct fuel; [done |].
  induction Hall as [| t ts Ht _ IH]; [done |].
  rewrite expand_with_cons, IH, expand_with_undefined by done. done.
Qed.

(** The hidden macros are pairwise distinct entries of the table, so
    there are never more of them than the table has entries. *)
Lemma hidden_bounded (env : macros) (hide : list string) :
  NoDup hide → (∀ t, t ∈ hide → is_Some (env !! t)) →
  (length hide ≤ size env)%nat.
Proof.
  intros Hnd Hdom. rewrite <- size_dom.
  change (size (dom env)) with (length (elements (dom env))).
  apply submseteq_length, NoDup_submseteq; [exact Hnd |].
  intros t Ht. apply elem_of_elements, elem_of_dom, Hdom, Ht.
Qed.

(** The fuel [expand] starts with is never exhausted: any two amounts of
    fuel above the number of macros not yet hidden give the same
    replacement. *)
Lemma expand_with_fuel_irrelevant (env : macros) :
  ∀ f1 f2 hide ts,
    NoDup hide → (∀ t, t ∈ hide → is_Some (env !! t)) →
    (size env < f1 + length hide)%nat → (size env < f2 + length hide)%nat →
    expand_with f1 hide env ts = expand_with f2 hide env ts.
Proof.
  induction f1 as [| f1 IH]; intros f2 hide ts Hnd Hdom H1 H2.
  { pose proof (hidden_bounded env hide Hnd Hdom). cbn in H1. lia. }
  destruct f2 as [| f2].
  { pose proof (hidden_bounded env hide Hnd Hdom). cbn in H2. lia. }
  cbn [expand_with]. apply list_bind_ext; [| reflexivity].
  intros t. destruct (env !! t) as [body |] eqn:Ht; [| reflexivity].
  destruct (is_ident t); [| reflexivity].
  cbn [andb]. destruct (bool_decide (t ∈ hide)) eqn:Hhid; [reflexivity |].
  cbn [negb]. apply bool_decide_eq_false in Hhid.
  apply IH.
  - by constructor.
  - intros t' [-> | Hin]%elem_of_cons; [eauto | by apply Hdom].
  - cbn [length]. lia.
  - cbn [length]. lia.
Qed.

Lemma expand_fuel_enough (env : macros) (fuel : nat) (ts : list string) :
  (size env < fuel)%nat → expand_with fuel [] env ts = expand env ts.
Proof.
  intros Hfuel. unfold expand.
  apply expand_with_fuel_irrelevant;
    [constructor | intros t Ht; by apply not_elem_of_nil in Ht | cbn; lia ..].
Qed.

(** The declaration's punctuation survives every replacement, so the line
    never vanishes. *)
Lemma expand_decl_tokens_nonempty (env : macros) : expand env decl_tokens ≠ [].
Proof.
  unfold expand, decl_tokens.
  rewrite expand_with_cons, (expand_with_cons _ _ _ "Init_Session").
  rewrite (expand_with_cons _ _ _ "(").
  rewrite (expand_with_not_ident _ _ _ "(") by reflexivity.
  intros Heq. apply app_eq_nil in Heq as [_ Heq].
  apply app_eq_nil in Heq as [_ Heq]. discriminate Heq.
Qed.

(** ** What the header produces, for every macro table *)

Lemma preprocess_guarded (env : macros) :
  defined GUARD env = true → preprocess common_h env = Some (env, []).
Proof.
  intros HG. unfold preprocess. rewrite parse_common_h.
  cbn [mbind option_bind header_items run step push_frame active pp_env
       pp_stack pp_out frame_active parent_active condition in_else].
  rewrite HG. reflexivity.
Qed.

Lemma preprocess_unguarded (env : macros) :
  defined GUARD env = false →
  preprocess common_h env = Some (first_reading env).
Proof.
  intros HG. unfold preprocess, first_reading, fallback_path.
  rewrite parse_common_h.
  cbn [mbind option_bind header_items run step push_frame active pp_env
       pp_stack pp_out frame_active parent_active condition in_else
       emit set_env negb andb app].
  rewrite HG.
  cbn [mbind option_bind header_items run step push_frame active pp_env
       pp_stack pp_out frame_active parent_active condition in_else
       emit set_env negb andb app].
  rewrite (defined_insert_ne HAVE_LIBSPOTIFY_API_H GUARD) by done.
  pose proof (expand_decl_tokens_nonempty (<[GUARD := []]> env)) as Hne.
  destruct (defined HAVE_LIBSPOTIFY_API_H env);
    cbn [mbind option_bind header_items run step push_frame active pp_env
         pp_stack pp_out frame_active parent_active condition in_else
         emit set_env negb andb app];
    destruct (expand (<[GUARD := []]> env) decl_tokens); done.
Qed.

(** Tokens that name no macro come out of [expand] unchanged, whatever
    else the table defines. *)
Lemma expand_all_undefined (env : macros) ts :
  Forall (fun t => defined t env = false) ts → expand env ts = ts.
Proof.
  intros Hall. apply expand_with_all_undefined.
  eapply Forall_impl; [exact Hall |]. intros t Ht. by apply defined_false.
Qed.

Lemma expand_decl_clean (env : macros) :
  Forall (fun t => defined t env = false) decl_identifiers →
  expand (<[GUARD := []]> env) decl_tokens = decl_tokens.
Proof.
  intros Hclean. unfold expand, decl_identifiers in *.
  rewrite !Forall_cons in Hclean. destruct Hclean as (Hv & Hi & Ha & _).
  unfold decl_tokens.
  rewrite (expand_with_cons _ _ _ "void"), (expand_with_cons _ _ _ "Init_Session"),
    (expand_with_cons _ _ _ "("), (expand_with_cons _ _ _ "VALUE"),
    (expand_with_cons _ _ _ ")").
  rewrite (expand_with_not_ident _ _ _ "(") by reflexivity.
  rewrite (expand_with_not_ident _ _ _ ")") by reflexivity.
  rewrite (expand_with_not_ident _ _ _ ";") by reflexivity.
  rewrite !expand_with_undefined;
    [done | rewrite lookup_insert_ne by done; by apply defined_false ..].
Qed.

(** * The include guard *)

(** C10: when [__HALLON__] is already defined on entry, reading the header
    contributes nothing: no [<ruby.h>], no [<pthread.h>], neither
    libspotify header and no declaration of [Init_Session] is produced,
    and the macro table is left as it was. *)
Theorem guard_defined_contributes_nothing (env : macros) :
  defined GUARD env = true →
  preprocess common_h env = Some (env, []) ∧
  ∀ out, emitted env = Some out →
    times_included "ruby.h" out = 0 ∧
    times_included "pthread.h" out = 0 ∧
    times_included "libspotify/api.h" out = 0 ∧
    times_included "spotify/api.h" out = 0 ∧
    includes_of out = [] ∧
    declarations_of out = [].
Proof.
  intros HG. pose proof (preprocess_guarded env HG) as Hrun.
  split; [exact Hrun |].
  intros out. unfold emitted. rewrite Hrun. cbn [fmap option_fmap option_map snd].
  intros [= <-]. repeat split.
Qed.

Lemma guard_defined_contributes_nothing_witness :
  defined GUARD {[ "__HALLON__" := ["1"]; "HAVE_LIBSPOTIFY_API_H" := [] ]} = true ∧
  preprocess common_h {[ "__HALLON__" := ["1"]; "HAVE_LIBSPOTIFY_API_H" := [] ]}
  = Some ({[ "__HALLON__" := ["1"]; "HAVE_LIBSPOTIFY_API_H" := [] ]}, []).
Proof.
  split; [vm_compute; reflexivity |].
  apply (guard_defined_contributes_nothing
           {[ "__HALLON__" := ["1"]; "HAVE_LIBSPOTIFY_API_H" := [] ]}).
  vm_compute. reflexivity.
Defined.

(** C4: whenever the guard is not already defined, the header includes
    [<ruby.h>] and [<pthread.h>], once each and in that order, whatever
    else the macro table holds and whether or not
    [HAVE_LIBSPOTIFY_API_H] is defined. *)
Theorem ruby_and_pthread_always_included (env : macros) :
  defined GUARD env = false →
  ∃ env' out,
    preprocess common_h env = Some (env', out) ∧
    times_included "ruby.h" out = 1 ∧
    times_included "pthread.h" out = 1 ∧
    ∃ rest, out = Included Angle "ruby.h" :: Included Angle "pthread.h" :: rest.
Proof.
  intros HG. rewrite (preprocess_unguarded env HG).
  unfold first_reading, fallback_path. eexists _, _.
  split; [reflexivity |].
  destruct (defined HAVE_LIBSPOTIFY_API_H env); cbn; eauto.
Qed.

Lemma ruby_and_pthread_always_included_witness :
  defined GUARD {[ "HAVE_LIBSPOTIFY_API_H" := ["1"] ]} = false ∧
  ∃ env' out,
    preprocess common_h {[ "HAVE_LIBSPOTIFY_API_H" := ["1"] ]} = Some (env', out) ∧
    times_included "ruby.h" out = 1 ∧
    times_included "pthread.h" out = 1 ∧
    ∃ rest, out = Included Angle "ruby.h" :: Included Angle "pthread.h" :: rest.
Proof.
  split; [vm_compute; reflexivity |].
  apply (ruby_and_pthread_always_included {[ "HAVE_LIBSPOTIFY_API_H" := ["1"] ]}).
  vm_compute. reflexivity.
Defined.



(** * Dependence on the macro table *)

(** C9 does not hold as stated: the empty macro table and the table that
    defines only [VALUE] (as [int]) agree on [__HALLON__] and on
    [HAVE_LIBSPOTIFY_API_H], yet the declaration the header produces
    differs, because the tokens of the declaration line undergo macro
    replacement. *)
Lemma tested_macros_do_not_determine_output :
  agree_on_tested_macros no_macros value_is_int ∧
  emitted no_macros =
    Some [ Included Angle "ruby.h"; Included Angle "pthread.h";
           Included Angle "spotify/api.h";
           Emitted ["void"; "Init_Session"; "("; "VALUE"; ")"; ";"] ] ∧
  emitted value_is_int =
    Some [ Included Angle "ruby.h"; Included Angle "pthread.h";
           Included Angle "spotify/api.h";
           Emitted ["void"; "Init_Session"; "("; "int"; ")"; ";"] ] ∧
  emitted no_macros ≠ emitted value_is_int.
Proof.
  split; [split; vm_compute; reflexivity |].
  split; [vm_compute; reflexivity |].
  split; [vm_compute; reflexivity |].
  vm_compute. discriminate.
Qed.

(** * The size of the file *)

(** C6 does not hold as stated: the file has a seventeenth line. *)
Lemma common_h_has_a_17th_line :
  source_lines common_h !! 16 = Some "#endif" ∧ line_count common_h ≠ 16.
Proof. split; [vm_compute; reflexivity | vm_compute; discriminate]. Qed.

(** C6, amended: the file is 283 bytes long and holds 16 newline
    characters; these terminate its first 16 lines, and a seventeenth
    line, the closing [#endif], follows without a newline after it.  The
    file therefore consists of 17 lines, of which 16 are terminated. *)
Theorem common_h_line_structure :
  String.length common_h = 283 ∧
  newline_count common_h = 16 ∧
  line_count common_h = 17 ∧
  last (source_lines common_h) = Some "#endif" ∧
  ends_with_newline common_h = false ∧
  unterminated_last_line common_h = true.
Proof. repeat split; vm_compute; reflexivity. Qed.

(** * The declaration *)

(** C1: the header declares exactly one function, [Init_Session], which
    its only comment introduces as an initializer for a class.  The only
    text line outside directives and comments is that declaration, so a
    name is among the functions the file declares exactly when it is
    [Init_Session]. *)
Theorem declares_only_Init_Session :
  comments common_h =
    [LF +:+ "    Initializers for the other classes." +:+ LF +:+ "  "] ∧
  ∃ its,
    parse_text common_h = Some its ∧
    text_lines its = [["void"; "Init_Session"; "("; "VALUE"; ")"; ";"]] ∧
    fn_name <$> declared_functions its = ["Init_Session"] ∧
    ∀ f, f ∈ fn_name <$> declared_functions its ↔ f = "Init_Session".
Proof.
  split; [vm_compute; reflexivity |].
  exists header_items. split; [exact parse_common_h |].
  split; [reflexivity |]. split; [reflexivity |].
  intros f. change (fn_name <$> declared_functions header_items)
    with ["Init_Session"].
  rewrite list_elem_of_singleton. done.
Qed.

(** C8: as declared in the header, [Init_Session] returns [void] and
    takes exactly one parameter, whose type is [VALUE] (the parameter is
    not named). *)
Theorem Init_Session_signature :
  ∃ its,
    parse_text common_h = Some its ∧
    declared_functions its =
      [ {| ret_type := ["void"];
           fn_name := "Init_Session";
           params := Some [["VALUE"]] |} ].
Proof. exists header_items. split; [exact parse_common_h | reflexivity]. Qed.

(** * The content of the file *)

(** C5: the file holds nothing but the include guard, [#include]
    directives (two of them under the [#ifdef] that chooses between them)
    and one function declaration.  The only macro it defines is
    [__HALLON__], it undefines none, it has a single text line, which is
    the function declaration (hence no type, object or data-structure
    definition), and reading it changes the macro table by at most the
    definition of [__HALLON__]. *)
Theorem header_is_guard_includes_and_one_declaration :
  (∃ its,
     parse_text common_h = Some its ∧
     forallb plain_header_item its = true ∧
     macros_defined its = [GUARD] ∧
     length (text_lines its) = 1 ∧
     length (declared_functions its) = 1 ∧
     inside_choice 0 its =
       [ Ifdef HAVE_LIBSPOTIFY_API_H; Include Angle "libspotify/api.h"; Else;
         Include Angle "spotify/api.h"; Endif ]) ∧
  ∀ env : macros,
    ∃ env' out,
      preprocess common_h env = Some (env', out) ∧
      (env' = env ∨ env' = <[GUARD := []]> env).
Proof.
  split.
  - exists header_items. split; [exact parse_common_h |].
    repeat split; vm_compute; reflexivity.
  - intros env. destruct (defined GUARD env) eqn:HG.
    + rewrite preprocess_guarded by done. eauto.
    + rewrite preprocess_unguarded by done. unfold first_reading. eauto.
Qed.

(** * The companion translation unit *)

Module CompanionFacts.
Import Companion.






End CompanionFacts.

(** * Further properties of the header *)

Lemma run_app (its1 its2 : list item) (st : pp_state) :
  run (its1 ++ its2) st = run its1 st ≫= run its2.
Proof.
  revert st. induction its1 as [| it its1 IH]; intros st; [done |].
  cbn [app run]. destruct (step it st) as [st' |]; [apply IH | done].
Qed.

Lemma parse_terminated_common_h :
  parse_text (common_h +:+ LF) = Some (header_items ++ [Blank]).
Proof. vm_compute. reflexivity. Qed.


Lemma defined_delete_ne (m k : string) (env : macros) :
  k ≠ m → defined m (delete k env) = defined m env.
Proof. intros Hne. unfold defined. by rewrite lookup_delete_ne. Qed.



(** X4: the file ends without a final newline, and that is immaterial:
    with a newline added after the closing [#endif] the header leaves the
    same macro table and produces the same events, for every macro
    table. *)
Theorem final_newline_is_immaterial (env : macros) :
  preprocess (common_h +:+ LF) env = preprocess common_h env.
Proof.
  unfold preprocess. rewrite parse_terminated_common_h, parse_common_h.
  cbn [mbind option_bind]. rewrite run_app.
  destruct (run header_items (PP env [] [])) as [st |]; reflexivity.
Qed.

(** ** The header inside a translation unit *)






(** * The header and the files outside *)

Ltac run_header_with :=
  cbn [header_items run_with step_with step push_frame active pp_env
       pp_stack pp_out frame_active parent_active condition in_else mbind
       option_bind emit set_env negb andb fst snd x_pp x_world x_tests
       record_test].

Section ExternalFacts.

Context {world : Type}.
Variable sys :
  include_form → string → world → macros → option (world * macros).

Lemma include_here_with_common_h (st : xstate) :
  include_here_with sys common_h st = run_with sys header_items st.
Proof. unfold include_here_with. by rewrite parse_common_h. Qed.

(** In a skipped group, and wherever the guard is already defined, the
    header reads no file and changes neither the macro table nor the
    open conditionals; in a processed group its one test is recorded. *)
Lemma run_with_header_skip (w : world) (pp : pp_state)
    (tests : list (string * bool)) :
  active pp = false ∨ defined GUARD (pp_env pp) = true →
  run_with sys header_items (XS w pp tests) =
  Some (XS w pp (if active pp then tests ++ [(GUARD, true)] else tests)).
Proof.
  destruct pp as [env stk out]. cbn [pp_env]. intros Hskip.
  destruct (defined GUARD env) eqn:HG;
    destruct stk as [| [[] [] []] rest];
    cbn [active pp_stack frame_active parent_active condition in_else
         andb negb] in Hskip |- *;
    try (destruct Hskip; discriminate);
    run_header_with; rewrite ?HG; run_header_with; reflexivity.
Qed.

Lemma run_with_header_first (w : world) (env : macros) (stk : list frame)
    (out : list event) (tests : list (string * bool)) :
  active (PP env stk out) = true → defined GUARD env = false →
  run_with sys header_items (XS w (PP env stk out) tests) =
  header_first_result sys w env stk out tests.
Proof.
  intros Hact HG. unfold header_first_result.
  destruct stk as [| [[] [] []] rest];
    cbn [active pp_stack frame_active parent_active condition in_else
         andb negb] in Hact;
    try discriminate Hact;
    run_header_with; rewrite HG; run_header_with;
    (destruct (sys Angle "ruby.h" w (<[GUARD := []]> env)) as [[w1 e1] |];
       [| reflexivity]);
    run_header_with;
    (destruct (sys Angle "pthread.h" w1 e1) as [[w2 e2] |]; [| reflexivity]);
    run_header_with; unfold fallback_path;
    destruct (defined HAVE_LIBSPOTIFY_API_H e2); run_header_with;
    (destruct (sys Angle _ w2 e2) as [[w3 e3] |]; [| reflexivity]);
    run_header_with; unfold decl_events;
    destruct (expand e3 decl_tokens); run_header_with;
    rewrite <- ?app_assoc; reflexivity.
Qed.

(** With an outside that finds every file and leaves the macro table
    alone, the evaluator is [run]. *)
Lemma step_with_inert (it : item) (st : xstate (world := world)) :
  x_pp <$> step_with inert it st = step it (x_pp st).
Proof.
  destruct st as [w [env stk out] tests].
  destruct it; cbn [step_with x_pp x_world x_tests];
    try (destruct (step _ _); reflexivity).
  cbn [step inert mbind option_bind pp_env].
  by destruct (active _).
Qed.

Lemma run_with_inert (its : list item) (st : xstate (world := world)) :
  x_pp <$> run_with inert its st = run its (x_pp st).
Proof.
  revert st. induction its as [| it its IH]; intros st; [reflexivity |].
  cbn [run_with run]. rewrite <- step_with_inert.
  destruct (step_with inert it st) as [st1 |]; [apply IH | reflexivity].
Qed.

(** The declaration line is text: it contributes no include. *)
Lemma includes_of_decl_events (out : list event) (env : macros) :
  includes_of (out ++ decl_events env) = includes_of out.
Proof.
  unfold includes_of, decl_events. rewrite omap_app.
  destruct (expand env decl_tokens); cbn; by rewrite app_nil_r.
Qed.

(** With none of its identifiers a macro, the declaration line is emitted
    as it is written. *)
Lemma decl_events_clean (env : macros) :
  Forall (fun t => defined t env = false) decl_identifiers →
  decl_events env = [Emitted decl_tokens].
Proof.
  intros Hclean. unfold decl_events, expand.
  unfold decl_identifiers in Hclean.
  rewrite !Forall_cons in Hclean. destruct Hclean as (Hv & Hi & Ha & _).
  apply defined_false in Hv, Hi, Ha.
  unfold decl_tokens.
  rewrite (expand_with_cons _ _ _ "void"), (expand_with_cons _ _ _ "Init_Session"),
    (expand_with_cons _ _ _ "("), (expand_with_cons _ _ _ "VALUE"),
    (expand_with_cons _ _ _ ")").
  rewrite (expand_with_not_ident _ _ _ "(") by reflexivity.
  rewrite (expand_with_not_ident _ _ _ ")") by reflexivity.
  rewrite (expand_with_not_ident _ _ _ ";") by reflexivity.
  by rewrite !expand_with_undefined.
Qed.

(** The two ways a reading of the whole header can end. *)
Lemma preprocess_with_cases (w : world) (env : macros) (st : xstate) :
  preprocess_with sys common_h w env = Some st →
  (defined GUARD env = true ∧ st = XS w (PP env [] []) [(GUARD, true)]) ∨
  (defined GUARD env = false ∧
   ∃ w1 e1 w2 e2 w3 e3,
     sys Angle "ruby.h" w (<[GUARD := []]> env) = Some (w1, e1) ∧
     sys Angle "pthread.h" w1 e1 = Some (w2, e2) ∧
     sys Angle (fallback_path e2) w2 e2 = Some (w3, e3) ∧
     st = XS w3
            (PP e3 []
                ([ Included Angle "ruby.h"; Included Angle "pthread.h";
                   Included Angle (fallback_path e2) ] ++ decl_events e3))
            [ (GUARD, false);
              (HAVE_LIBSPOTIFY_API_H, defined HAVE_LIBSPOTIFY_API_H e2) ]).
Proof.
  unfold preprocess_with. rewrite include_here_with_common_h.
  destruct (defined GUARD env) eqn:HG.
  - rewrite run_with_header_skip by (right; exact HG).
    cbn. intros [= <-]. by left.
  - rewrite run_with_header_first by done. unfold header_first_result.
    destruct (sys Angle "ruby.h" w _) as [[w1 e1] |] eqn:H1; [| done].
    cbn [mbind option_bind].
    destruct (sys Angle "pthread.h" w1 e1) as [[w2 e2] |] eqn:H2; [| done].
    cbn [mbind option_bind].
    destruct (sys Angle (fallback_path e2) w2 e2) as [[w3 e3] |] eqn:H3; [| done].
    cbn. intros [= <-]. right. split; [done |].
    by exists w1, e1, w2, e2, w3, e3.
Qed.

(** *** Inclusions in a translation unit *)

Lemma read_header_skip (c : world * pp_state) :
  active c.2 = false ∨ defined GUARD (pp_env c.2) = true →
  read_header sys c = Some c.
Proof.
  destruct c as [w pp]. intros Hskip. unfold read_header.
  rewrite include_here_with_common_h, run_with_header_skip by exact Hskip.
  reflexivity.
Qed.

Lemma read_header_defines_guard (c c' : world * pp_state) :
  sys_keeps_guard sys → active c.2 = true →
  read_header sys c = Some c' →
  defined GUARD (pp_env c'.2) = true.
Proof.
  destruct c as [w [env stk out]]. intros Hsys Hact.
  destruct (defined GUARD env) eqn:HG.
  - rewrite read_header_skip by (right; exact HG). by intros [= <-].
  - unfold read_header. rewrite include_here_with_common_h.
    cbn [fst snd]. rewrite run_with_header_first by done.
    unfold header_first_result.
    destruct (sys Angle "ruby.h" w _) as [[w1 e1] |] eqn:H1; [| done].
    cbn [mbind option_bind].
    destruct (sys Angle "pthread.h" w1 e1) as [[w2 e2] |] eqn:H2; [| done].
    cbn [mbind option_bind].
    destruct (sys Angle (fallback_path e2) w2 e2) as [[w3 e3] |] eqn:H3; [| done].
    cbn. intros [= <-]. cbn.
    eapply Hsys; [exact H3 |]. eapply Hsys; [exact H2 |].
    eapply Hsys; [exact H1 |]. apply defined_insert_eq.
Qed.

(** Reading again something that changes nothing where the guard is
    defined, after segments that keep the guard defined, is not reading
    it again. *)
Lemma rereading_by_noop (reader : segment) (segs : list segment)
    (c : world * pp_state) :
  (∀ c, defined GUARD (pp_env c.2) = true → reader c = Some c) →
  Forall keeps_guard segs →
  defined GUARD (pp_env c.2) = true →
  rereading_by reader segs c = not_rereading segs c.
Proof.
  intros Hnoop Hsegs. revert c.
  induction Hsegs as [| seg segs Hseg _ IH]; intros c HG; [reflexivity |].
  cbn [rereading_by not_rereading].
  destruct (seg c) as [c1 |] eqn:Hc1; [| reflexivity].
  cbn [mbind option_bind].
  pose proof (Hseg c c1 Hc1 HG) as HG1.
  rewrite (Hnoop c1 HG1). cbn [mbind option_bind]. exact (IH c1 HG1).
Qed.

Lemma rereading_while_defined (segs : list segment) (c : world * pp_state) :
  Forall keeps_guard segs →
  defined GUARD (pp_env c.2) = true →
  rereading sys segs c = not_rereading segs c.
Proof.
  intros Hsegs HG. unfold rereading.
  apply rereading_by_noop; [| exact Hsegs | exact HG].
  intros c' HG'. apply read_header_skip. by right.
Qed.

(** Items other than [#undef __HALLON__], the files they include leaving
    the guard alone, do not undefine it. *)
Lemma run_with_keeps_guard (its : list item) (st st' : xstate) :
  sys_keeps_guard sys → Undef GUARD ∉ its →
  run_with sys its st = Some st' →
  defined GUARD (pp_env (x_pp st)) = true →
  defined GUARD (pp_env (x_pp st')) = true.
Proof.
  intros Hsys. revert st. induction its as [| it its IH]; intros st Hno Hrun HG.
  { by injection Hrun as <-. }
  apply not_elem_of_cons in Hno as [Hit Hno].
  cbn [run_with] in Hrun.
  destruct (step_with sys it st) as [st1 |] eqn:Hstep; [| done].
  cbn [mbind option_bind] in Hrun. apply (IH st1 Hno Hrun).
  destruct st as [w [env stk out] tests]. cbn [x_pp pp_env] in HG.
  destruct it;
    cbn [step_with step x_pp x_world x_tests pp_env pp_stack pp_out
         push_frame mbind option_bind] in Hstep.
  - by injection Hstep as <-.
  - by injection Hstep as <-.
  - by injection Hstep as <-.
  - destruct stk as [| [p c []] rest]; [done | done |]. by injection Hstep as <-.
  - destruct stk as [| f rest]; [done |]. by injection Hstep as <-.
  - injection Hstep as <-. destruct (active _); [| done].
    cbn [set_env x_pp pp_env].
    destruct (decide (m = GUARD)) as [-> | Hne].
    + apply defined_insert_eq.
    + by rewrite (defined_insert_ne GUARD m).
  - injection Hstep as <-. destruct (active _); [| done].
    cbn [set_env x_pp pp_env].
    rewrite defined_delete_ne; [done |]. intros ->. by apply Hit.
  - destruct (active _); [| by injection Hstep as <-].
    destruct (sys form path w env) as [[w1 e1] |] eqn:Hsysr; [| done].
    cbn in Hstep. injection Hstep as <-. cbn.
    eapply Hsys; [exact Hsysr | exact HG].
  - destruct (active _); [done |]. by injection Hstep as <-.
  - injection Hstep as <-. destruct (active _); [| done].
    by destruct (expand _ _).
Qed.

Lemma items_segment_keeps_guard (its : list item) :
  sys_keeps_guard sys → Undef GUARD ∉ its →
  keeps_guard (items_segment sys its).
Proof.
  intros Hsys Hno [w pp] c'. unfold items_segment. cbn [fst snd].
  destruct (run_with sys its (XS w pp [])) as [st |] eqn:Hrun; [| done].
  cbn. intros [= <-] HG. cbn.
  exact (run_with_keeps_guard its _ st Hsys Hno Hrun HG).
Qed.

(** C3, amended: the [#ifndef] and the [#define] that open the file name
    the same macro, [__HALLON__], and the [#define] comes before every
    include and before the declaration.  An inclusion at a point where
    [__HALLON__] is defined reads none of the files the header includes,
    produces no include and no declaration and leaves the preprocessor
    state as it is.  Hence a translation unit that includes the header in
    a processed group and again after each of its segments does exactly
    what it does when it includes the header the first time only,
    provided nothing undefines [__HALLON__] between the inclusions:
    neither a segment of the unit nor a file that is read. *)
Theorem include_guard_idempotent_while_defined :
  (∃ m rest,
     parse_text common_h = Some (Ifndef m :: Define m [] :: rest) ∧
     m = GUARD ∧
     last rest = Some Endif) ∧
  (∀ c : world * pp_state,
     defined GUARD (pp_env c.2) = true → read_header sys c = Some c) ∧
  (∀ (segs : list segment) (c : world * pp_state),
     sys_keeps_guard sys →
     Forall keeps_guard segs →
     active c.2 = true →
     unit_including_again sys segs c = unit_including_once sys segs c).
Proof.
  split; [| split].
  - eexists _, _. split; [exact parse_common_h |]. split; reflexivity.
  - intros c HG. apply read_header_skip. by right.
  - intros segs c Hsys Hsegs Hact.
    unfold unit_including_again, unit_including_once.
    destruct (read_header sys c) as [c0 |] eqn:Hfirst; [| reflexivity].
    cbn [mbind option_bind].
    apply rereading_while_defined; [exact Hsegs |].
    exact (read_header_defines_guard c c0 Hsys Hact Hfirst).
Qed.

(** C9, amended: the directives of the header test two macros and no
    other: [__HALLON__], in the macro table the reading starts from, and,
    when that is not defined, [HAVE_LIBSPOTIFY_API_H], in the macro table
    that reading [<ruby.h>] and then [<pthread.h>] has left.  Of two
    readings in which these tests come out the same, the includes are the
    same, whatever else the macro tables hold; and when none of the
    identifiers of the declaration line ([void], [Init_Session], [VALUE])
    is a macro in the table either reading ends with, which is the table
    the declaration is replaced under, everything the header emits is the
    same. *)
Theorem output_depends_on_two_tests
    (w1 w2 : world) (env1 env2 : macros) (st1 st2 : xstate) :
  preprocess_with sys common_h w1 env1 = Some st1 →
  preprocess_with sys common_h w2 env2 = Some st2 →
  ((defined GUARD env1 = true ∧ x_tests st1 = [(GUARD, true)]) ∨
   (defined GUARD env1 = false ∧
    ∃ wa ea wb eb,
      sys Angle "ruby.h" w1 (<[GUARD := []]> env1) = Some (wa, ea) ∧
      sys Angle "pthread.h" wa ea = Some (wb, eb) ∧
      x_tests st1 =
        [ (GUARD, false);
          (HAVE_LIBSPOTIFY_API_H, defined HAVE_LIBSPOTIFY_API_H eb) ])) ∧
  (x_tests st1 = x_tests st2 →
   includes_of (pp_out (x_pp st1)) = includes_of (pp_out (x_pp st2)) ∧
   (Forall (fun t => defined t (pp_env (x_pp st1)) = false ∧
                     defined t (pp_env (x_pp st2)) = false)
           decl_identifiers →
    pp_out (x_pp st1) = pp_out (x_pp st2))).
Proof.
  intros Hrun1 Hrun2.
  apply preprocess_with_cases in Hrun1, Hrun2.
  destruct Hrun1 as [[HG1 ->] | (HG1 & wa & ea & wb & eb & wc & ec & Ha & Hb & Hc & ->)].
  - split; [by left |].
    destruct Hrun2 as [[HG2 ->] | (HG2 & ? & ? & ? & ? & ? & ? & _ & _ & _ & ->)];
      cbn [x_tests x_pp pp_out pp_env]; [done | discriminate].
  - split.
    { right. split; [done |]. by exists wa, ea, wb, eb. }
    destruct Hrun2 as [[HG2 ->] | (HG2 & wa' & ea' & wb' & eb' & wc' & ec' & _ & _ & _ & ->)];
      cbn [x_tests x_pp pp_out pp_env]; [discriminate |].
    intros [= Hhave].
    assert (Hpath : fallback_path eb = fallback_path eb')
      by (unfold fallback_path; by rewrite Hhave).
    rewrite Hpath. split.
    + by rewrite !includes_of_decl_events.
    + intros Hclean. rewrite !decl_events_clean; [done | |].
      * eapply Forall_impl; [exact Hclean |]. intros t Ht. apply Ht.
      * eapply Forall_impl; [exact Hclean |]. intros t Ht. apply Ht.
Qed.

(** X1: whenever the header is read in a processed group with
    [__HALLON__] not defined, and the reading succeeds, the events it adds
    are, in this order, [<ruby.h>], [<pthread.h>], one of the two
    libspotify headers, and only then what the declaration line yields,
    which holds no include.  Nothing of the declaration is emitted before
    [<ruby.h>] has been read.  When none of [void], [Init_Session] and
    [VALUE] is a macro at that point, the line is emitted as written. *)
Theorem header_events_in_order (st st' : xstate) :
  active (x_pp st) = true →
  defined GUARD (pp_env (x_pp st)) = false →
  include_here_with sys common_h st = Some st' →
  ∃ path rest,
    pp_out (x_pp st') =
      pp_out (x_pp st) ++
      Included Angle "ruby.h" :: Included Angle "pthread.h" ::
      Included Angle path :: rest ∧
    (path = "libspotify/api.h" ∨ path = "spotify/api.h") ∧
    includes_of rest = [] ∧
    (Forall (fun t => defined t (pp_env (x_pp st')) = false) decl_identifiers →
     rest = [Emitted decl_tokens]).
Proof.
  destruct st as [w [env stk out] tests]. cbn [x_pp pp_env pp_out].
  intros Hact HG. rewrite include_here_with_common_h.
  rewrite run_with_header_first by done. unfold header_first_result.
  destruct (sys Angle "ruby.h" w _) as [[w1 e1] |]; [| done].
  cbn [mbind option_bind].
  destruct (sys Angle "pthread.h" w1 e1) as [[w2 e2] |]; [| done].
  cbn [mbind option_bind].
  destruct (sys Angle (fallback_path e2) w2 e2) as [[w3 e3] |]; [| done].
  cbn [mbind option_bind]. intros [= <-]. cbn [x_pp pp_env pp_out].
  exists (fallback_path e2), (decl_events e3). split; [reflexivity |].
  split; [unfold fallback_path; destruct (defined _ e2); eauto |].
  split; [exact (includes_of_decl_events [] e3) |].
  apply decl_events_clean.
Qed.

End ExternalFacts.

(** The outside of the trial run leaves the guard alone. *)
Lemma extconf_hook_keeps_guard : sys_keeps_guard extconf_hook.
Proof.
  intros form path w env w' env'. unfold extconf_hook.
  destruct (String.eqb path "ruby.h").
  - intros [= <- <-] HG. destruct (defined "RUBY_EXTCONF_H" env); [| done].
    by rewrite (defined_insert_ne GUARD HAVE_LIBSPOTIFY_API_H).
  - destruct (String.eqb path "spotify/api.h"); [done |].
    by intros [= <- <-].
Qed.

Example missing_file_is_an_error :
  preprocess_with extconf_hook common_h tt ∅ = None.
Proof. vm_compute. reflexivity. Qed.

(** C3 does not hold as stated: the unit that undefines [__HALLON__]
    between two inclusions receives the includes and the declaration of
    the header twice, and once when it includes the header once. *)
Lemma undefining_guard_repeats_header :
  pp_out ∘ snd <$>
    unit_including_again inert [undef_guard_segment] (tt, PP ∅ [] []) =
    Some [ Included Angle "ruby.h"; Included Angle "pthread.h";
           Included Angle "spotify/api.h";
           Emitted ["void"; "Init_Session"; "("; "VALUE"; ")"; ";"];
           Included Angle "ruby.h"; Included Angle "pthread.h";
           Included Angle "spotify/api.h";
           Emitted ["void"; "Init_Session"; "("; "VALUE"; ")"; ";"] ] ∧
  pp_out ∘ snd <$>
    unit_including_once inert [undef_guard_segment] (tt, PP ∅ [] []) =
    Some [ Included Angle "ruby.h"; Included Angle "pthread.h";
           Included Angle "spotify/api.h";
           Emitted ["void"; "Init_Session"; "("; "VALUE"; ")"; ";"] ] ∧
  unit_including_again inert [undef_guard_segment] (tt, PP ∅ [] []) ≠
  unit_including_once inert [undef_guard_segment] (tt, PP ∅ [] []).
Proof.
  split; [vm_compute; reflexivity |].
  split; [vm_compute; reflexivity |].
  vm_compute. discriminate.
Qed.

Lemma include_guard_idempotent_while_defined_witness :
  unit_including_again extconf_hook
    [ items_segment extconf_hook
        [Define "DEBUG" ["1"]; Include Angle "stdio.h"];
      items_segment extconf_hook
        [Ifdef "DEBUG"; Text ["int"; "verbose"; ";"]; Endif] ]
    (tt, PP {[ "RUBY_EXTCONF_H" := ["extconf.h"] ]} [] []) =
  unit_including_once extconf_hook
    [ items_segment extconf_hook
        [Define "DEBUG" ["1"]; Include Angle "stdio.h"];
      items_segment extconf_hook
        [Ifdef "DEBUG"; Text ["int"; "verbose"; ";"]; Endif] ]
    (tt, PP {[ "RUBY_EXTCONF_H" := ["extconf.h"] ]} [] []).
Proof.
  destruct (include_guard_idempotent_while_defined extconf_hook)
    as (_ & _ & Hsame).
  apply Hsame.
  - exact extconf_hook_keeps_guard.
  - repeat constructor;
      (apply items_segment_keeps_guard; [exact extconf_hook_keeps_guard |]);
      intros Hin;
      repeat (apply elem_of_cons in Hin as [Hin | Hin]; [discriminate Hin |]);
      by apply elem_of_nil in Hin.
  - reflexivity.
Defined.

Lemma output_depends_on_two_tests_witness :
  ∃ st1 st2,
    preprocess_with extconf_hook common_h tt
      {[ "RUBY_EXTCONF_H" := ["extconf.h"] ]} = Some st1 ∧
    preprocess_with extconf_hook common_h tt
      {[ "HAVE_LIBSPOTIFY_API_H" := ["1"] ]} = Some st2 ∧
    x_tests st1 = x_tests st2 ∧
    pp_out (x_pp st1) = pp_out (x_pp st2).
Proof.
  destruct (preprocess_with extconf_hook common_h tt
              {[ "RUBY_EXTCONF_H" := ["extconf.h"] ]}) as [st1 |] eqn:H1;
    [| vm_compute in H1; discriminate H1].
  destruct (preprocess_with extconf_hook common_h tt
              {[ "HAVE_LIBSPOTIFY_API_H" := ["1"] ]}) as [st2 |] eqn:H2;
    [| vm_compute in H2; discriminate H2].
  exists st1, st2. split; [reflexivity |]. split; [reflexivity |].
  destruct (output_depends_on_two_tests extconf_hook tt tt _ _ st1 st2 H1 H2)
    as [_ Hsame].
  assert (Htests : x_tests st1 = x_tests st2).
  { vm_compute in H1, H2. injection H1 as <-. injection H2 as <-. reflexivity. }
  split; [exact Htests |].
  apply (Hsame Htests).
  vm_compute in H1, H2. injection H1 as <-. injection H2 as <-.
  unfold decl_identifiers. repeat constructor; vm_compute; reflexivity.
Defined.

Lemma header_events_in_order_witness :
  ∃ st' path rest,
    include_here_with extconf_hook common_h
      (XS tt (PP {[ "RUBY_EXTCONF_H" := ["extconf.h"] ]} [] []) []) = Some st' ∧
    pp_out (x_pp st') =
      Included Angle "ruby.h" :: Included Angle "pthread.h" ::
      Included Angle path :: rest ∧
    includes_of rest = [].
Proof.
  destruct (include_here_with extconf_hook common_h
              (XS tt (PP {[ "RUBY_EXTCONF_H" := ["extconf.h"] ]} [] []) []))
    as [st' |] eqn:Hrun; [| vm_compute in Hrun; discriminate Hrun].
  assert (Hact : active (PP {[ "RUBY_EXTCONF_H" := ["extconf.h"] ]} [] []) = true)
    by reflexivity.
  assert (HG : defined GUARD ({[ "RUBY_EXTCONF_H" := ["extconf.h"] ]} : macros)
               = false) by (vm_compute; reflexivity).
  destruct (header_events_in_order extconf_hook
              (XS tt (PP {[ "RUBY_EXTCONF_H" := ["extconf.h"] ]} [] []) [])
              st' Hact HG Hrun)
    as (path & rest & Hout & _ & Hinc & _).
  exists st', path, rest. split; [reflexivity |]. split; [exact Hout | exact Hinc].
Defined.
